(** * batshit: a shallow embedding of the batcher of [src/index.ts]

    The batcher returned by [create] closes over six mutable variables
    ([seq], [batch], [currentRequest], [timer], [start], [latest]).  Its
    [fetch] method, the callback it hands to [setTimeout] and the
    [then]/[catch] callbacks it hangs on the fetcher's promise are the three
    pieces of code that touch them.  Each is embedded as a function on a
    [World]: the six variables together with the part of the JavaScript
    runtime they refer to (armed timeouts, allocated deferreds, fetcher
    promises that have not settled yet) and two history lists.

    Numbers are integers ([Z]): time stamps are those of [Date.now()]. *)

From stdpp Require Import base option list gmap strings.
From Stdlib Require Import ZArith Lia.

(** ** Schedulers *)

(** [BatcherScheduler]: [(start, latest) => number] *)
Definition BatcherScheduler := Z -> Z -> Z.

(** index.ts 168-172 *)
Definition windowScheduler (ms : Z) : BatcherScheduler :=
  fun start latest =>
    let spent := (latest - start)%Z in
    (ms - spent)%Z.

(** index.ts 180-182 *)
Definition bufferScheduler (ms : Z) : BatcherScheduler :=
  fun _ _ => ms.

(** ** JavaScript values *)

Module Js.

(** Primitive values and object references.  Leibniz equality on [value]
    is the SameValueZero comparison a [Set] uses: [NaN] is equal to
    itself and two objects are equal when they are the same reference. *)
Inductive value :=
| Undefined
| Null
| Bool (b : bool)
| Num (n : Z)
| NaN
| Str (s : string)
| Ref (r : nat).

#[global] Instance value_eq_dec : EqDecision value.
Proof. solve_decision. Defined.

Inductive tag := TUndefined | TNull | TBoolean | TNumber | TString | TObject.

Definition type_of (v : value) : tag :=
  match v with
  | Undefined => TUndefined
  | Null => TNull
  | Bool _ => TBoolean
  | Num _ | NaN => TNumber
  | Str _ => TString
  | Ref _ => TObject
  end.

(** [a === b] *)
Definition strict_eq (a b : value) : bool :=
  match a, b with
  | Undefined, Undefined => true
  | Null, Null => true
  | Bool x, Bool y => bool_decide (x = y)
  | Num x, Num y => bool_decide (x = y)
  | Str x, Str y => bool_decide (x = y)
  | Ref x, Ref y => bool_decide (x = y)
  | _, _ => false
  end.

(** An item of the fetcher's result: an object read by property name. *)
Definition object := gmap string value.

(** [item[key]] *)
Definition get (item : object) (key : string) : value :=
  default Undefined (item !! key).

(** [keyEquality(key)(item, query)], index.ts 156-159 *)
Definition keyEquality (key : string) (item : object) (query : value) : bool :=
  strict_eq (get item key) query.

(** [BatcherConfig], index.ts 28-52, for items that are objects and
    queries that are values.  The fetcher is the environment's (its
    results arrive as [Settle] actions) and [name] only labels devtools
    events. *)
Record BatcherConfig := {
  scheduler : option BatcherScheduler;
  equality : string + (object -> value -> bool);
}.

(** [config.scheduler ?? windowScheduler(10)], index.ts 80 *)
Definition scheduler_of (config : BatcherConfig) : BatcherScheduler :=
  default (windowScheduler 10) (scheduler config).

(** [typeof config.equality == "function" ? config.equality
    : keyEquality(config.equality)], index.ts 82-85 *)
Definition equality_of (config : BatcherConfig) : object -> value -> bool :=
  match equality config with
  | inr f => f
  | inl key => keyEquality key
  end.

End Js.

(** ** Promises and deferreds *)

Inductive PromiseState (V E : Type) :=
| Pending
| Fulfilled (v : V)
| Rejected (e : E).
Arguments Pending {V E}.
Arguments Fulfilled {V E} v.
Arguments Rejected {V E} e.

(** Modelled from the spec: the module [./deferred] imported by index.ts is
    not among the sources.  The spec describes a Deferred Result as a
    promise-like handle settled from outside, "resolved/rejected exactly
    once": a settlement of a deferred that is no longer pending is
    ignored, as for any promise. *)
Definition deferred {V E : Type} : PromiseState V E := Pending.

Definition resolve {V E : Type} (data : V) (d : PromiseState V E) : PromiseState V E :=
  match d with
  | Pending => Fulfilled data
  | _ => d
  end.

Definition reject {V E : Type} (error : E) (d : PromiseState V E) : PromiseState V E :=
  match d with
  | Pending => Rejected error
  | _ => d
  end.

(** ** The batcher *)

(** [batch.add(query)] on a [Set], kept as the list [[...batch]] of its
    elements in insertion order. *)
Definition set_add {Q : Type} `{EqDecision Q} (query : Q) (batch : list Q) : list Q :=
  if decide (query ∈ batch) then batch else batch ++ [query].

(** The promise [currentRequest.value.then(data => data.find(...))] that
    [fetch] returns: the deferred it is chained from and the query the
    callback closes over. *)
Record Promise (Q : Type) := {
  source : nat;
  query : Q;
}.
Arguments source {Q} _.
Arguments query {Q} _.

(** One invocation [config.fetcher([...batch])]. *)
Record Call (Q : Type) := {
  call_time : Z;          (* when the timer callback ran *)
  call_seq : nat;         (* [currentSeq] *)
  call_queries : list Q;  (* [[...batch]] *)
  call_deferred : nat;    (* [_currentRequest] *)
}.
Arguments call_time {Q} _.
Arguments call_seq {Q} _.
Arguments call_queries {Q} _.
Arguments call_deferred {Q} _.

Record World (T Q E : Type) := {
  (* the variables [create] declares, index.ts 89-94 *)
  seq : nat;
  batch : list Q;
  currentRequest : nat;          (* a reference into [heap] *)
  timer : option nat;            (* a handle into [timers] *)
  start : option Z;
  latest : option Z;
  (* the runtime *)
  timers : gmap nat Z;           (* armed timeouts: handle to time due *)
  next_timer : nat;
  heap : gmap nat (PromiseState (list T) E);   (* the deferreds created so far *)
  next_deferred : nat;
  inflight : gmap nat nat;       (* unsettled fetcher promises: index in
                                    [calls] to the [_currentRequest] their
                                    callbacks captured *)
  (* history *)
  calls : list (Call Q);         (* invocations of the fetcher, oldest first *)
  returned : list (nat * Promise Q);  (* promises handed to callers, each
                                         with the [seq] at the time *)
}.
Arguments seq {T Q E} _.
Arguments batch {T Q E} _.
Arguments currentRequest {T Q E} _.
Arguments timer {T Q E} _.
Arguments start {T Q E} _.
Arguments latest {T Q E} _.
Arguments timers {T Q E} _.
Arguments next_timer {T Q E} _.
Arguments heap {T Q E} _.
Arguments next_deferred {T Q E} _.
Arguments inflight {T Q E} _.
Arguments calls {T Q E} _.
Arguments returned {T Q E} _.

(** What the environment can do to a batcher. *)
Inductive Action (T Q E : Type) :=
| Fetch (now : Z) (q : Q)              (* a caller runs [fetch(q)] while [Date.now()] is [now] *)
| Timeout (h : nat)                    (* the runtime runs the callback of timeout [h] *)
| Settle (r : nat) (res : E + list T). (* the promise of fetcher call [r] rejects or fulfils *)
Arguments Fetch {T Q E} now q.
Arguments Timeout {T Q E} h.
Arguments Settle {T Q E} r res.

Section Batcher.
Context {T Q E : Type} `{EqDecision Q}.
Variable scheduler : BatcherScheduler.
Variable equality : T -> Q -> bool.

(** The state [create] leaves behind, index.ts 89-94: [currentRequest]
    is the first deferred. *)
Definition create : World T Q E :=
  {| seq := 0; batch := []; currentRequest := 0; timer := None;
     start := None; latest := None;
     timers := ∅; next_timer := 0;
     heap := {[ 0 := deferred ]}; next_deferred := 1;
     inflight := ∅; calls := []; returned := [] |}.

(** [clearTimeout(timer)]; [clearTimeout(undefined)] does nothing. *)
Definition clearTimeout (timer : option nat) (timers : gmap nat Z) : gmap nat Z :=
  match timer with
  | Some h => delete h timers
  | None => timers
  end.

(** [fetch(query)], index.ts 98-145, run while [Date.now()] is [now].
    [!start] holds of [null] and of [0].  A timeout armed at [now] with
    delay [scheduled] is due at [now + scheduled]. *)
Definition fetch (now : Z) (query : Q) (w : World T Q E) : World T Q E * Promise Q :=
  let start' :=
    match start w with
    | None => now
    | Some s => if bool_decide (s = 0%Z) then now else s
    end in
  let latest' := now in
  let batch' := set_add query (batch w) in
  let timers' := clearTimeout (timer w) (timers w) in
  let scheduled := scheduler start' latest' in
  let h := next_timer w in
  let p := {| source := currentRequest w; query := query |} in
  ({| seq := seq w; batch := batch'; currentRequest := currentRequest w;
      timer := Some h; start := Some start'; latest := Some latest';
      timers := <[ h := (now + scheduled)%Z ]> timers'; next_timer := S h;
      heap := heap w; next_deferred := next_deferred w;
      inflight := inflight w; calls := calls w;
      returned := returned w ++ [(seq w, p)] |}, p).

(** The callback given to [setTimeout], index.ts 116-140, run for the
    timeout [h] that was due at [due]. *)
Definition on_timeout (h : nat) (due : Z) (w : World T Q E) : World T Q E :=
  let currentSeq := seq w in
  let req := length (calls w) in
  let _currentRequest := currentRequest w in
  let call := {| call_time := due; call_seq := currentSeq;
                 call_queries := batch w; call_deferred := _currentRequest |} in
  let fresh := next_deferred w in
  {| seq := S (seq w); batch := []; currentRequest := fresh;
     timer := None; start := None; latest := None;
     timers := delete h (timers w); next_timer := next_timer w;
     heap := <[ fresh := deferred ]> (heap w); next_deferred := S fresh;
     inflight := <[ req := _currentRequest ]> (inflight w);
     calls := calls w ++ [call]; returned := returned w |}.

(** The callbacks on [req], index.ts 129-137: [then] resolves the
    captured deferred with the data, [catch] rejects it with the error. *)
Definition on_settle (r : nat) (_currentRequest : nat) (res : E + list T)
    (w : World T Q E) : World T Q E :=
  let settle :=
    match res with
    | inr data => resolve data
    | inl error => reject error
    end in
  {| seq := seq w; batch := batch w; currentRequest := currentRequest w;
     timer := timer w; start := start w; latest := latest w;
     timers := timers w; next_timer := next_timer w;
     heap := alter settle _currentRequest (heap w);
     next_deferred := next_deferred w;
     inflight := delete r (inflight w);
     calls := calls w; returned := returned w |}.

(** The state of a promise returned by [fetch], index.ts 142-144: it
    follows the deferred it is chained from, through
    [data.find((item) => equality(item, query))]. *)
Definition promise_state (w : World T Q E) (p : Promise Q) : PromiseState (option T) E :=
  match heap w !! source p with
  | Some (Fulfilled data) => Fulfilled (find (fun item => equality item (query p)) data)
  | Some (Rejected error) => Rejected error
  | _ => Pending
  end.

(** One action.  An action that is not enabled (a timeout that is not
    armed, a fetcher promise that has settled or was never made) does
    not happen: the world stays as it is. *)
Definition step (a : Action T Q E) (w : World T Q E) : World T Q E :=
  match a with
  | Fetch now q => (fetch now q w).1
  | Timeout h =>
      match timers w !! h with
      | Some due => on_timeout h due w
      | None => w
      end
  | Settle r res =>
      match inflight w !! r with
      | Some d => on_settle r d res w
      | None => w
      end
  end.

Definition exec (tr : list (Action T Q E)) (w : World T Q E) : World T Q E :=
  foldl (fun w a => step a w) w tr.

(** The worlds a batcher can be in: [create], then any actions. *)
Definition reach (tr : list (Action T Q E)) : World T Q E :=
  exec tr create.

(** *** Timed runs

    The runtime runs a timeout's callback when it is due; a callback due
    at [t] runs before code that starts at [t]. *)
Definition elapse (t : Z) (w : World T Q E) : World T Q E :=
  foldr (fun '(h, due) w => if bool_decide (due <= t)%Z then on_timeout h due w else w)
        w (map_to_list (timers w)).

Definition fetch_at (w : World T Q E) (c : Z * Q) : World T Q E :=
  (fetch c.1 c.2 (elapse c.1 w)).1.

(** A sequence of [fetch] calls, each at its own time. *)
Definition session (cs : list (Z * Q)) (w : World T Q E) : World T Q E :=
  foldl fetch_at w cs.

(** Nothing more happens: the timeouts still armed run when due. *)
Definition drain (w : World T Q E) : World T Q E :=
  foldr (fun '(h, due) w => on_timeout h due w) w (map_to_list (timers w)).

End Batcher.

(** ** Histories, invariants and examples *)

Section History.
Context {T Q E : Type} `{EqDecision Q}.

(** The queries of the [fetch] calls made while [seq] was [n], in call
    order. *)
Definition asked (n : nat) (w : World T Q E) : list Q :=
  (fun x => query x.2) <$> filter (fun x => x.1 = n) (returned w).

(** The [Set] a sequence of [add]s builds from the empty one. *)
Definition collect (qs : list Q) : list Q :=
  foldl (fun b q => set_add q b) [] qs.






(** No batch is being collected. *)
Definition idle (w : World T Q E) : Prop :=
  timer w = None /\ timers w = ∅ /\ batch w = [] /\
  start w = None /\ latest w = None.

(** What every world a batcher can be in satisfies. *)
Record wf (w : World T Q E) : Prop := {
  wf_seq : seq w = length (calls w);
  wf_current : currentRequest w = seq w;
  wf_next : next_deferred w = S (seq w);
  wf_heap_fresh : forall d, seq w < d -> heap w !! d = None;
  wf_heap_current : heap w !! seq w = Some Pending;
  wf_inflight : forall r d, inflight w !! r = Some d ->
      d = r /\ r < seq w /\ heap w !! r = Some Pending;
  wf_calls : forall i c, calls w !! i = Some c ->
      call_seq c = i /\ call_deferred c = i /\
      call_queries c = collect (asked i w) /\ call_queries c <> [];
  wf_returned : forall n p, (n, p) ∈ returned w -> source p = n /\ n <= seq w;
  wf_batch : batch w = collect (asked (seq w) w);
  wf_timer :
    match timer w with
    | None => idle w
    | Some h => (exists due, timers w = {[ h := due ]}) /\ batch w <> [] /\
                is_Some (start w) /\ is_Some (latest w)
    end;
}.

End History.

(** The posts of the repository's "custom resolver" test, fetched by
    author. *)
Module Posts.
Import Js.

Definition post (id : Z) (title : string) (authorId : Z) : object :=
  <[ "id" := Num id ]> (<[ "title" := Str title ]> {[ "authorId" := Num authorId ]}).


(** [(post, query) => post.authorId === query] *)
Definition by_author : object -> value -> bool := keyEquality "authorId".

Definition config : BatcherConfig :=
  {| scheduler := Some (windowScheduler 10); equality := inr by_author |}.

(** Two callers ask for the posts of authors 1 and 2 at time 100, the
    timer runs, the fetcher answers with the four posts. *)
Definition asking : list (Action object value string) :=
  [Fetch 100 (Num 1); Fetch 100 (Num 2); Timeout 1].



Definition bob : Promise value := {| source := 0; query := Num 2 |}.

End Posts.

(** The ids of the repository's tests: four calls for two users, 0, 2, 5
    and 10 ms after the first, with [bufferScheduler(15)] and
    [bufferScheduler(10)]. *)
Module Users.
Import Js.




Definition by_id : BatcherConfig :=
  {| scheduler := None; equality := inl "id" |}.

Definition user (id : Z) (name : string) : object :=
  <[ "id" := Num id ]> {[ "name" := Str name ]}.

(** Two callers ask for user 2 within the default window; then the timer
    runs. *)
Definition waiting : list (Action object value string) :=
  [Fetch 100 (Num 2); Fetch 103 (Num 2)].

Definition asking : list (Action object value string) :=
  waiting ++ [Timeout 1].

Definition caller : Promise value := {| source := 0; query := Num 2 |}.

End Users.



(** More runs of a batcher of users by id. *)
Module Scenes.
Import Js.







End Scenes.

(** * Properties *)

(** ** Sets in insertion order *)

Section SetFacts.
Context {Q : Type} `{EqDecision Q}.
Implicit Types (q x y : Q) (b qs : list Q).

Lemma elem_of_set_add x q b : x ∈ set_add q b <-> x = q \/ x ∈ b.
Proof.
  unfold set_add. case_decide as Hin.
  - split; [auto | intros [-> | ?]; done].
  - rewrite elem_of_app, list_elem_of_singleton. tauto.
Qed.



Lemma set_add_absent q b : q ∉ b -> set_add q b = b ++ [q].
Proof. intros Hin. unfold set_add. by rewrite decide_False. Qed.

Lemma set_add_not_nil q b : set_add q b <> [].
Proof.
  unfold set_add. case_decide as Hin.
  - intros ->. by apply not_elem_of_nil in Hin.
  - by destruct b.
Qed.

Lemma collect_snoc qs q : collect (qs ++ [q]) = set_add q (collect qs).
Proof. unfold collect. by rewrite foldl_app. Qed.

Lemma elem_of_collect x qs : x ∈ collect qs <-> x ∈ qs.
Proof.
  induction qs as [| q qs IH] using rev_ind.
  - done.
  - rewrite collect_snoc, elem_of_set_add, IH, elem_of_app, list_elem_of_singleton.
    tauto.
Qed.


Lemma collect_nil : collect (@nil Q) = [].
Proof. done. Qed.





End SetFacts.

(** ** The invariant *)

Section Invariant.
Context {T Q E : Type} `{EqDecision Q}.
Variable scheduler : BatcherScheduler.
Implicit Types (w : World T Q E) (p : Promise Q) (a : Action T Q E).

Lemma asked_fetch n now q w :
  asked n (fetch scheduler now q w).1 =
  asked n w ++ (if decide (seq w = n) then [q] else []).
Proof.
  unfold asked, fetch. simpl. rewrite filter_app, fmap_app. f_equal.
  case_decide as Hn.
  - by rewrite filter_cons_True.
  - by rewrite filter_cons_False.
Qed.

Lemma asked_beyond n w : wf w -> seq w < n -> asked n w = [].
Proof.
  intros Hwf Hlt. unfold asked.
  destruct (filter _ _) as [| [m p] l] eqn:Hf; [done |].
  assert ((m, p) ∈ filter (fun x => x.1 = n) (returned w)) as Hin
    by (rewrite Hf; apply list_elem_of_here).
  apply list_elem_of_filter in Hin as [Hm Hin]. simpl in Hm.
  apply (wf_returned _ Hwf) in Hin. lia.
Qed.

Lemma wf_create : wf (create : World T Q E).
Proof.
  split; simpl; try done.
  - intros d Hd. apply lookup_singleton_ne. lia.
  - intros n p Hin. by apply not_elem_of_nil in Hin.
Qed.

Lemma timers_after_fetch now q w :
  wf w ->
  timers (fetch scheduler now q w).1 =
  {[ next_timer w :=
       (now + scheduler (match start w with
                         | None => now
                         | Some s => if bool_decide (s = 0%Z) then now else s
                         end) now)%Z ]}.
Proof.
  intros Hwf. pose proof (wf_timer _ Hwf) as Ht. simpl.
  destruct (timer w) as [h |]; simpl.
  - destruct Ht as ([due ->] & _). by rewrite delete_singleton_eq, insert_empty.
  - destruct Ht as (_ & -> & _). by rewrite insert_empty.
Qed.

Lemma wf_fetch now q w : wf w -> wf (fetch scheduler now q w).1.
Proof.
  intros Hwf. pose proof (timers_after_fetch now q w Hwf) as Htimers.
  destruct Hwf as [Hseq Hcur Hnext Hfresh Hheap Hfl Hcalls Hret Hbatch Htimer].
  split; try (simpl; done).
  - intros i c Hc. rewrite asked_fetch.
    change (calls (fetch scheduler now q w).1) with (calls w) in Hc.
    pose proof (lookup_lt_Some _ _ _ Hc) as Hlt.
    rewrite decide_False by lia. rewrite app_nil_r. by apply Hcalls.
  - intros n p. simpl. rewrite elem_of_app, list_elem_of_singleton.
    intros [Hin | [= -> ->]]; [by apply Hret |]. simpl. split; [done | lia].
  - rewrite asked_fetch. change (seq (fetch scheduler now q w).1) with (seq w).
    rewrite decide_True by done. rewrite collect_snoc. simpl. by rewrite Hbatch.
  - change (timer (fetch scheduler now q w).1) with (Some (next_timer w)).
    split_and!; [eauto | apply set_add_not_nil | by eexists | by eexists].
Qed.

Lemma armed_timer w h due :
  wf w -> timers w !! h = Some due ->
  timer w = Some h /\ timers w = {[ h := due ]} /\ batch w <> [].
Proof.
  intros Hwf Hh. pose proof (wf_timer _ Hwf) as Ht.
  destruct (timer w) as [h' |].
  - destruct Ht as ([due' Heq] & Hb & _). rewrite Heq in Hh.
    apply lookup_singleton_Some in Hh as [-> ->]. done.
  - destruct Ht as (_ & Heq & _). rewrite Heq in Hh. done.
Qed.

Lemma wf_on_timeout h due w :
  wf w -> timers w !! h = Some due -> wf (on_timeout h due w).
Proof.
  intros Hwf Hh. destruct (armed_timer w h due Hwf Hh) as (Htm & Htms & Hne).
  pose proof (asked_beyond (S (seq w)) w Hwf (Nat.lt_succ_diag_r _)) as Hnone.
  destruct Hwf as [Hseq Hcur Hnext Hfresh Hheap Hfl Hcalls Hret Hbatch Htimer].
  split; simpl.
  - rewrite length_app. simpl. lia.
  - done.
  - by rewrite Hnext.
  - intros d Hd. rewrite Hnext. rewrite lookup_insert_ne by lia. apply Hfresh. lia.
  - rewrite Hnext. apply lookup_insert_eq.
  - intros r d. rewrite Hnext, <- Hseq, Hcur. rewrite lookup_insert.
    case_decide as Hr.
    + intros [= <-]. subst r. split_and!; [done | lia |].
      by rewrite lookup_insert_ne by lia.
    + intros (-> & Hlt & Hp)%Hfl. split_and!; [done | lia |].
      by rewrite lookup_insert_ne by lia.
  - intros i c. rewrite lookup_app_Some. intros [Hc | [Hge Hc]].
    + by apply Hcalls.
    + apply list_lookup_singleton_Some in Hc as [Hi <-]. simpl.
      assert (i = seq w) as -> by lia.
      split_and!; [done | done | | done].
      rewrite Hbatch. done.
  - intros n p Hin. apply Hret in Hin. lia.
  - unfold asked in *. simpl. by rewrite Hnone.
  - unfold idle. simpl. rewrite Htms. by rewrite delete_singleton_eq.
Qed.

Lemma wf_on_settle r d res w :
  wf w -> inflight w !! r = Some d -> wf (on_settle r d res w).
Proof.
  intros Hwf Hr.
  destruct Hwf as [Hseq Hcur Hnext Hfresh Hheap Hfl Hcalls Hret Hbatch Htimer].
  destruct (Hfl _ _ Hr) as (-> & Hlt & Hp).
  split; simpl; try done.
  - intros d Hd. rewrite lookup_alter_ne by lia. by apply Hfresh.
  - rewrite lookup_alter_ne by lia. done.
  - intros r' d'. rewrite lookup_delete. case_decide as Hne; [done |].
    intros (-> & Hlt' & Hp')%Hfl. split_and!; [done | done |].
    by rewrite lookup_alter_ne by done.
Qed.

Lemma wf_step a w : wf w -> wf (step scheduler a w).
Proof.
  intros Hwf. destruct a as [now q | h | r res]; simpl.
  - by apply wf_fetch.
  - destruct (timers w !! h) eqn:Hh; [by apply wf_on_timeout | done].
  - destruct (inflight w !! r) eqn:Hr; [by apply wf_on_settle | done].
Qed.

Lemma exec_snoc tr a w :
  exec scheduler (tr ++ [a]) w = step scheduler a (exec scheduler tr w).
Proof. unfold exec. by rewrite foldl_app. Qed.

Lemma exec_app tr tr' w :
  exec scheduler (tr ++ tr') w = exec scheduler tr' (exec scheduler tr w).
Proof. unfold exec. by rewrite foldl_app. Qed.

Lemma wf_exec tr w : wf w -> wf (exec scheduler tr w).
Proof.
  intros Hwf. induction tr as [| a tr IH] using rev_ind; [done |].
  rewrite exec_snoc. by apply wf_step.
Qed.

End Invariant.

(** ** Timed runs *)

Section Timing.
Context {T Q E : Type} `{EqDecision Q}.
Implicit Types (w : World T Q E) (cs : list (Z * Q)).










End Timing.

(** ** Outcomes *)

Section Outcomes.
Context {T Q E : Type} `{EqDecision Q}.
Variable scheduler : BatcherScheduler.
Variable equality : T -> Q -> bool.
Implicit Types (w : World T Q E) (p : Promise Q) (a : Action T Q E).
Implicit Types (tr : list (Action T Q E)).

Lemma wf_reach tr : wf (reach scheduler tr).
Proof. apply wf_exec, wf_create. Qed.


Lemma elem_of_asked q n w :
  q ∈ asked n w <-> exists p, (n, p) ∈ returned w /\ query p = q.
Proof.
  unfold asked. rewrite list_elem_of_fmap. split.
  - intros ([m p] & -> & [Hm Hin]%list_elem_of_filter). simpl in *. subst m. eauto.
  - intros (p & Hin & <-). exists (n, p). split; [done |].
    by apply list_elem_of_filter.
Qed.

(** A fetcher call in flight: its entry in the history and its callers. *)
Lemma inflight_call w r d :
  wf w -> inflight w !! r = Some d ->
  d = r /\ heap w !! r = Some Pending /\
  exists c, calls w !! r = Some c /\ call_seq c = r /\ call_deferred c = r /\
            call_queries c = collect (asked r w).
Proof.
  intros Hwf Hr. destruct (wf_inflight _ Hwf _ _ Hr) as (-> & Hlt & Hp).
  split_and!; [done | done |].
  rewrite (wf_seq _ Hwf) in Hlt. apply lookup_lt_is_Some in Hlt as [c Hc].
  exists c. by destruct (wf_calls _ Hwf _ _ Hc) as (? & ? & ? & ?).
Qed.

Lemma settled_heap w r d res :
  wf w -> inflight w !! r = Some d ->
  heap (step scheduler (Settle r res) w) !! r =
  Some (match res with inr data => Fulfilled data | inl e => Rejected e end).
Proof.
  intros Hwf Hr. destruct (inflight_call w r d Hwf Hr) as (-> & Hp & _).
  simpl. rewrite Hr. simpl. rewrite lookup_alter_eq, Hp. by destruct res.
Qed.









(** The promises of the callers of batch [r] once its fetcher call settles. *)
Lemma callers_settled w r d res p :
  wf w -> inflight w !! r = Some d -> (r, p) ∈ returned w ->
  promise_state equality (step scheduler (Settle r res) w) p =
  match res with
  | inr data => Fulfilled (find (fun item => equality item (query p)) data)
  | inl e => Rejected e
  end.
Proof.
  intros Hwf Hr Hin. apply (wf_returned _ Hwf) in Hin as [Hsrc _].
  unfold promise_state. rewrite Hsrc, (settled_heap w r d res Hwf Hr).
  by destruct res.
Qed.



Lemma find_first_match {A} (f : A -> bool) pre x post :
  f x = true -> Forall (fun y => f y = false) pre ->
  find f (pre ++ x :: post) = Some x.
Proof.
  intros Hx Hpre. induction Hpre as [| y pre Hy Hpre IH]; simpl.
  - by rewrite Hx.
  - by rewrite Hy.
Qed.

Lemma find_no_match {A} (f : A -> bool) l :
  Forall (fun y => f y = false) l -> find f l = None.
Proof.
  intros Hl. induction Hl as [| y l Hy Hl IH]; simpl; [done |]. by rewrite Hy.
Qed.

End Outcomes.

(** ** What the fetcher is called with *)

Section Batches.
Context {T Q E : Type} `{EqDecision Q}.
Variable scheduler : BatcherScheduler.
Implicit Types (w : World T Q E) (p : Promise Q) (c : Call Q).
Implicit Types (tr : list (Action T Q E)).





End Batches.

(** ** What the callers get *)

Section Callers.
Context {T Q E : Type} `{EqDecision Q}.
Variable scheduler : BatcherScheduler.
Variable equality : T -> Q -> bool.
Implicit Types (w : World T Q E) (p : Promise Q) (c : Call Q).
Implicit Types (tr : list (Action T Q E)).



(** C7: when the fetcher's promise fulfils with a result in which no item
    matches a caller's query, that caller's promise is fulfilled with
    [undefined]; whatever the result holds, no caller's promise is
    rejected, and the fetcher was invoked with that caller's query. *)
Theorem unmatched_query_resolves_undefined tr r d data p :
  inflight (reach scheduler tr) !! r = Some d ->
  (r, p) ∈ returned (reach scheduler tr) ->
  let w := reach scheduler tr in
  let w' := step scheduler (Settle r (inr data)) w in
  (Forall (fun item => equality item (query p) = false) data ->
   promise_state equality w' p = Fulfilled None) /\
  (forall e, promise_state equality w' p <> Rejected e) /\
  (exists c, calls w !! r = Some c /\ query p ∈ call_queries c).
Proof.
  intros Hr Hin w w'. pose proof (wf_reach scheduler tr) as Hwf. fold w in Hwf, Hr, Hin.
  pose proof (callers_settled scheduler equality w r d (inr data) p Hwf Hr Hin) as Hp.
  fold w' in Hp. split_and!.
  - intros Hno. rewrite Hp. f_equal. by apply find_no_match.
  - intros e. by rewrite Hp.
  - destruct (inflight_call w r d Hwf Hr) as (_ & _ & c & Hc & _ & _ & Hcq).
    exists c. split; [done |]. rewrite Hcq, elem_of_collect, elem_of_asked. eauto.
Qed.

End Callers.

(** ** Correlating items with queries *)

Section Correlation.
Context {E : Type}.
Implicit Types (config : Js.BatcherConfig) (p : Promise Js.value).
Implicit Types (tr : list (Action Js.object Js.value E)).

Lemma strict_eq_true a b : Js.strict_eq a b = true <-> a = b /\ b <> Js.NaN.
Proof.
  destruct a, b; simpl; rewrite ?bool_decide_eq_true;
    split; try done; try (by intros [[=] _]); try (by intros ->);
    try (by intros [[= ->] _]).
  by intros [_ ?].
Qed.


(** C9: the caller's promise is fulfilled with the first item of the
    result for which the configured equality holds, whatever follows it;
    when the configuration names a key, the equality holds exactly when
    the item's property and the query are the same value and not [NaN],
    and then they have the same type. *)
Theorem first_match_wins_and_key_match_is_strict config tr r d pre item post p :
  inflight (reach (Js.scheduler_of config) tr) !! r = Some d ->
  (r, p) ∈ returned (reach (Js.scheduler_of config) tr) ->
  Js.equality_of config item (query p) = true ->
  Forall (fun x => Js.equality_of config x (query p) = false) pre ->
  promise_state (Js.equality_of config)
    (step (Js.scheduler_of config) (Settle r (inr (pre ++ item :: post)))
       (reach (Js.scheduler_of config) tr)) p = Fulfilled (Some item) /\
  (forall key, Js.equality config = inl key ->
     forall (it : Js.object) (q : Js.value),
       (Js.equality_of config it q = true <->
        Js.get it key = q /\ q <> Js.NaN) /\
       (Js.equality_of config it q = true ->
        Js.type_of (Js.get it key) = Js.type_of q)).
Proof.
  intros Hr Hin Hitem Hpre. set (sched := Js.scheduler_of config) in *.
  pose proof (wf_reach (E:=E) sched tr) as Hwf. split.
  - rewrite (callers_settled sched _ _ r d _ p Hwf Hr Hin).
    f_equal. by apply find_first_match.
  - intros key Hkey it q. unfold Js.equality_of. rewrite Hkey.
    unfold Js.keyEquality. rewrite strict_eq_true. split; [done |].
    by intros [-> _].
Qed.

End Correlation.

(** ** Timing *)

Section Schedulers.
Context {T Q E : Type} `{EqDecision Q}.
Implicit Types (tr : list (Action T Q E)) (cs : list (Z * Q)).


End Schedulers.

(** C1, on the input where the code departs from it: a window of 10 ms
    whose first [fetch] comes while [Date.now()] is 0.  [!start] is true
    again at the second call, 5 ms later, which takes its own time for
    the start of the window: the fetcher is invoked at 15, not at 10. *)
Theorem window_opened_at_time_zero_fires_late :
  start (session (T:=Js.object) (E:=string) (windowScheduler 10)
           [(0, Js.Num 1); (5, Js.Num 2)]%Z create) = Some 5%Z /\
  calls (drain (session (T:=Js.object) (E:=string) (windowScheduler 10)
                  [(0, Js.Num 1); (5, Js.Num 2)]%Z create)) =
  [ {| call_time := 15; call_seq := 0;
       call_queries := [Js.Num 1; Js.Num 2]; call_deferred := 0 |} ].
Proof. split; vm_compute; reflexivity. Qed.


(** ** The repository's tests

    The timed runs of the tests "windowing", "debouncing" and "requests for
    the same ids should be deduplicates", started at 1000. *)

Example windowing :
  length (calls (drain (session (T:=Js.object) (E:=string) (windowScheduler 10)
                          [(1000, Js.Num 1); (1002, Js.Num 2); (1005, Js.Num 3);
                           (1010, Js.Num 4)]%Z create))) = 2.
Proof. vm_compute. reflexivity. Qed.

Example debouncing :
  call_queries <$> calls (drain (session (T:=Js.object) (E:=string) (bufferScheduler 10)
                                   [(1000, Js.Num 1); (1002, Js.Num 2);
                                    (1005, Js.Num 3); (1010, Js.Num 4)]%Z create)) =
  [[Js.Num 1; Js.Num 2; Js.Num 3; Js.Num 4]].
Proof. vm_compute. reflexivity. Qed.

Example deduplicated :
  call_queries <$> calls (drain (session (T:=Js.object) (E:=string) (bufferScheduler 15)
                                   [(1000, Js.Num 1); (1002, Js.Num 2);
                                    (1005, Js.Num 1); (1010, Js.Num 2)]%Z create)) =
  [[Js.Num 1; Js.Num 2]].
Proof. vm_compute. reflexivity. Qed.

(** ** The theorems at work

    Each theorem above that has premises, used on a run of the
    repository's tests. *)






Lemma unmatched_query_resolves_undefined_witness :
  inflight (reach (Js.scheduler_of Users.by_id) Users.asking) !! 0 = Some 0 /\
  (0, Users.caller) ∈ returned (reach (Js.scheduler_of Users.by_id) Users.asking) /\
  promise_state (Js.equality_of Users.by_id)
    (step (Js.scheduler_of Users.by_id) (Settle 0 (inr [Users.user 1 "Bob"]))
       (reach (Js.scheduler_of Users.by_id) Users.asking))
    Users.caller = Fulfilled None.
Proof.
  assert (inflight (reach (Js.scheduler_of Users.by_id) Users.asking) !! 0
          = Some 0) as Hr by (vm_compute; reflexivity).
  assert ((0, Users.caller) ∈
          returned (reach (Js.scheduler_of Users.by_id) Users.asking)) as Hin.
  { vm_compute. apply list_elem_of_here. }
  split_and!; [exact Hr | exact Hin |].
  apply (proj1 (unmatched_query_resolves_undefined
                  (Js.scheduler_of Users.by_id) (Js.equality_of Users.by_id)
                  Users.asking 0 0 [Users.user 1 "Bob"] Users.caller Hr Hin)).
  constructor; [vm_compute; reflexivity | constructor].
Defined.


Lemma first_match_wins_and_key_match_is_strict_witness :
  inflight (reach (Js.scheduler_of Users.by_id) Users.asking) !! 0 = Some 0 /\
  (0, Users.caller) ∈ returned (reach (Js.scheduler_of Users.by_id) Users.asking) /\
  Js.equality_of Users.by_id (Users.user 2 "Alice") (query Users.caller) = true /\
  Forall (fun x => Js.equality_of Users.by_id x (query Users.caller) = false)
         [Users.user 1 "Bob"] /\
  promise_state (Js.equality_of Users.by_id)
    (step (Js.scheduler_of Users.by_id)
       (Settle 0 (inr ([Users.user 1 "Bob"] ++
                       Users.user 2 "Alice" :: [Users.user 2 "Alicia"])))
       (reach (Js.scheduler_of Users.by_id) Users.asking))
    Users.caller = Fulfilled (Some (Users.user 2 "Alice")).
Proof.
  assert (inflight (reach (Js.scheduler_of Users.by_id) Users.asking) !! 0
          = Some 0) as Hr by (vm_compute; reflexivity).
  assert ((0, Users.caller) ∈
          returned (reach (Js.scheduler_of Users.by_id) Users.asking)) as Hin.
  { vm_compute. apply list_elem_of_here. }
  assert (Js.equality_of Users.by_id (Users.user 2 "Alice") (query Users.caller)
          = true) as Hitem by (vm_compute; reflexivity).
  assert (Forall (fun x => Js.equality_of Users.by_id x (query Users.caller) = false)
                 [Users.user 1 "Bob"]) as Hpre.
  { constructor; [vm_compute; reflexivity | constructor]. }
  split_and!; [exact Hr | exact Hin | exact Hitem | exact Hpre |].
  exact (proj1 (first_match_wins_and_key_match_is_strict Users.by_id Users.asking
                  0 0 [Users.user 1 "Bob"] (Users.user 2 "Alice")
                  [Users.user 2 "Alicia"] Users.caller Hr Hin Hitem Hpre)).
Defined.


(** * Further properties of the batcher *)

(** ** More invariants *)

Section MoreInvariants.
Context {T Q E : Type} `{EqDecision Q}.
Variable scheduler : BatcherScheduler.
Implicit Types (w : World T Q E) (p : Promise Q) (a : Action T Q E).
Implicit Types (tr : list (Action T Q E)).

Lemma reach_ind (P : World T Q E -> Prop) :
  P create ->
  (forall w a, wf w -> P w -> P (step scheduler a w)) ->
  forall tr, P (reach scheduler tr).
Proof.
  intros Hc Hs tr. unfold reach. induction tr as [| a tr IH] using rev_ind; [done |].
  rewrite exec_snoc. apply Hs; [apply wf_exec, wf_create | done].
Qed.

(** The deferred of a batch whose fetcher call is no longer in flight has
    settled. *)
Lemma settled_when_not_inflight tr r :
  r < seq (reach scheduler tr) -> inflight (reach scheduler tr) !! r = None ->
  exists s, heap (reach scheduler tr) !! r = Some s /\ s <> Pending.
Proof.
  revert r. apply (reach_ind (fun w => forall r, r < seq w -> inflight w !! r = None ->
    exists s, heap w !! r = Some s /\ s <> Pending)).
  - intros r Hr. simpl in Hr. lia.
  - intros w a Hwf IH r. destruct a as [now q | h | r0 res]; simpl.
    + apply IH.
    + destruct (timers w !! h) as [due |]; [| by apply IH]. simpl.
      rewrite <- (wf_seq _ Hwf), (wf_next _ Hwf). intros Hr Hnone.
      rewrite lookup_insert in Hnone. case_decide as Hne; [done |].
      rewrite lookup_insert_ne by lia. apply IH; [lia | done].
    + destruct (inflight w !! r0) as [d |] eqn:Hr0; [| by apply IH]. simpl.
      destruct (wf_inflight _ Hwf _ _ Hr0) as (-> & _ & Hp).
      intros Hr Hnone. rewrite lookup_delete in Hnone.
      rewrite lookup_alter. case_decide as Hne.
      * subst r0. rewrite Hp. simpl. destruct res; eauto.
      * by apply IH.
Qed.



End MoreInvariants.

(** ** The life of a batch *)

Section Lifecycle.
Context {T Q E : Type} `{EqDecision Q}.
Variable scheduler : BatcherScheduler.
Variable equality : T -> Q -> bool.
Implicit Types (w : World T Q E) (p : Promise Q) (c : Call Q).
Implicit Types (tr : list (Action T Q E)).



(** X3: a caller's promise is pending exactly as long as its batch is
    still being collected or its fetcher call has not settled: no caller
    is settled early, and none is left behind when the call settles. *)
Theorem promise_pending_iff_batch_unsettled tr n p :
  (n, p) ∈ returned (reach scheduler tr) ->
  (promise_state equality (reach scheduler tr) p = Pending <->
   n = seq (reach (T:=T) (E:=E) scheduler tr) \/
   is_Some (inflight (reach (T:=T) (E:=E) scheduler tr) !! n)).
Proof.
  intros Hin. pose proof (wf_reach (T:=T) (E:=E) scheduler tr) as Hwf.
  destruct (wf_returned _ Hwf _ _ Hin) as [Hsrc Hle].
  unfold promise_state. rewrite Hsrc. split.
  - intros Hp. destruct (decide (n = seq (reach scheduler tr))) as [| Hne]; [by left |].
    right. destruct (inflight (reach scheduler tr) !! n) eqn:Hfl; [done |].
    destruct (settled_when_not_inflight scheduler tr n) as (s & Hs & Hne');
      [lia | done |].
    rewrite Hs in Hp. by destruct s.
  - intros [-> | [d Hd]].
    + by rewrite (wf_heap_current _ Hwf).
    + destruct (wf_inflight _ Hwf _ _ Hd) as (_ & _ & ->). done.
Qed.


End Lifecycle.

(** ** More on timing *)

Section MoreTiming.
Context {T Q E : Type} `{EqDecision Q}.
Variable equality : T -> Q -> bool.
Implicit Types (w : World T Q E) (p : Promise Q) (cs : list (Z * Q)).
Implicit Types (tr : list (Action T Q E)).




End MoreTiming.

(** ** More on correlating items with queries *)

Section MoreCorrelation.
Context {E : Type}.
Implicit Types (config : Js.BatcherConfig) (p : Promise Js.value).
Implicit Types (tr : list (Action Js.object Js.value E)).

(** X7: looking items up by key is sound and complete: a caller is
    fulfilled with an item only if the item is in the result and its
    property is the caller's query, and with [undefined] exactly when no
    item of the result has the query as its property (or the query is
    [NaN]). *)
Theorem key_lookup_sound_and_complete config key tr r d data p :
  Js.equality config = inl key ->
  inflight (reach (Js.scheduler_of config) tr) !! r = Some d ->
  (r, p) ∈ returned (reach (Js.scheduler_of config) tr) ->
  (forall item,
     promise_state (Js.equality_of config)
       (step (Js.scheduler_of config) (Settle r (inr data))
          (reach (Js.scheduler_of config) tr)) p = Fulfilled (Some item) ->
     item ∈ data /\ Js.get item key = query p) /\
  (promise_state (Js.equality_of config)
     (step (Js.scheduler_of config) (Settle r (inr data))
        (reach (Js.scheduler_of config) tr)) p = Fulfilled None <->
   query p = Js.NaN \/ forall item, item ∈ data -> Js.get item key <> query p).
Proof.
  intros Hkey Hr Hin.
  pose proof (wf_reach (E:=E) (Js.scheduler_of config) tr) as Hwf.
  rewrite (callers_settled (Js.scheduler_of config) _ _ r d (inr data) p Hwf Hr Hin).
  unfold Js.equality_of. rewrite Hkey. unfold Js.keyEquality. split.
  - intros item [= Hfind]. apply List.find_some in Hfind as [Hi Hm].
    apply strict_eq_true in Hm as [Hm _]. by rewrite list_elem_of_In.
  - split.
    + intros [= Hfind]. destruct (decide (query p = Js.NaN)) as [| Hnan]; [by left |].
      right. intros item Hi%list_elem_of_In Heq.
      pose proof (List.find_none _ _ Hfind item Hi) as Hm. simpl in Hm.
      assert (Js.strict_eq (Js.get item key) (query p) = true) as Ht
        by (by apply strict_eq_true).
      congruence.
    + intros Hno. f_equal.
      destruct (find _ data) as [item |] eqn:Hfind; [| done].
      apply List.find_some in Hfind as [Hi Hm].
      apply strict_eq_true in Hm as [Hm Hnan].
      destruct Hno as [Hno | Hno]; [done |].
      by apply list_elem_of_In, Hno in Hi.
Qed.


End MoreCorrelation.

(** ** The further theorems at work *)


Lemma promise_pending_iff_batch_unsettled_witness :
  (0, Users.caller) ∈ returned (reach (Js.scheduler_of Users.by_id) Users.asking) /\
  (promise_state (Js.equality_of Users.by_id)
     (reach (Js.scheduler_of Users.by_id) Users.asking) Users.caller = Pending <->
   0 = seq (reach (Js.scheduler_of Users.by_id) Users.asking) \/
   is_Some (inflight (reach (Js.scheduler_of Users.by_id) Users.asking) !! 0)).
Proof.
  assert ((0, Users.caller) ∈
          returned (reach (Js.scheduler_of Users.by_id) Users.asking)) as Hin.
  { vm_compute. apply list_elem_of_here. }
  split; [exact Hin |].
  exact (promise_pending_iff_batch_unsettled (Js.scheduler_of Users.by_id)
           (Js.equality_of Users.by_id) Users.asking 0 Users.caller Hin).
Defined.



Lemma key_lookup_sound_and_complete_witness :
  Js.equality Users.by_id = inl "id" /\
  inflight (reach (Js.scheduler_of Users.by_id) Users.asking) !! 0 = Some 0 /\
  (0, Users.caller) ∈ returned (reach (Js.scheduler_of Users.by_id) Users.asking) /\
  (forall item,
     promise_state (Js.equality_of Users.by_id)
       (step (Js.scheduler_of Users.by_id)
          (Settle 0 (inr [Users.user 1 "Bob"; Users.user 2 "Alice"]))
          (reach (Js.scheduler_of Users.by_id) Users.asking)) Users.caller
     = Fulfilled (Some item) ->
     item ∈ [Users.user 1 "Bob"; Users.user 2 "Alice"] /\
     Js.get item "id" = query Users.caller).
Proof.
  assert (inflight (reach (Js.scheduler_of Users.by_id) Users.asking) !! 0
          = Some 0) as Hr by (vm_compute; reflexivity).
  assert ((0, Users.caller) ∈
          returned (reach (Js.scheduler_of Users.by_id) Users.asking)) as Hin.
  { vm_compute. apply list_elem_of_here. }
  split_and!; [reflexivity | exact Hr | exact Hin |].
  exact (proj1 (key_lookup_sound_and_complete (E:=string) Users.by_id "id"
                  Users.asking 0 0 [Users.user 1 "Bob"; Users.user 2 "Alice"]
                  Users.caller eq_refl Hr Hin)).
Defined.


